(** * Manual setup payload generator and TLV traversal utilities

    A shallow embedding of [src/setup_payload/ManualSetupPayloadGenerator.cpp]
    (the manual entry code generator) and of the traversal interface declared
    in [CHIPTLVUtilities.hpp] ([Iterate], [Count], [Find]).

    Machine integers are integers of [Z] with the wrap-around of the C++ type
    written out ([to_uint32]); C++ strings are [string]; out-parameters and
    the standard error stream are passed in and returned; a call that
    writes past the end of a buffer has the outcome [OutOfBounds]. *)

From Stdlib Require Import ZArith List String Ascii Bool Lia.
Import ListNotations.

Open Scope Z_scope.

(* ================================================================== *)
(** * Status codes *)

(** Modelled from the spec: [CHIPError.h] is not among the sources.  The
    generator returns [CHIP_NO_ERROR] and [CHIP_ERROR_INVALID_ARGUMENT]; the
    traversal engine adds the decode failure of the element cursor, the
    status by which the visitor of [Find] asks [Iterate] to stop, and the
    arbitrary failure codes a caller's visitor may return.  One type serves
    the visitor and the traversal, as [IterateHandler] and [Iterate] both
    return [CHIP_ERROR]. *)
Inductive CHIP_ERROR : Type :=
| CHIP_NO_ERROR
| CHIP_ERROR_INVALID_ARGUMENT
| CHIP_ERROR_TLV_DECODE
| CHIP_ERROR_STOP_ITERATION
| CHIP_ERROR_CODE (code : Z).

(** A status is a success when it is [CHIP_NO_ERROR]. *)
Definition isSuccess (e : CHIP_ERROR) : bool :=
  match e with CHIP_NO_ERROR => true | _ => false end.

(* ================================================================== *)
(** * Manual setup payload generator *)

(** ** Machine integers and [sprintf] *)

(** Conversion to [uint32_t]. *)
Definition to_uint32 (z : Z) : Z := z mod 2 ^ 32.

Definition digit_to_char (d : Z) : ascii := ascii_of_nat (48 + Z.to_nat d).

Definition is_digit (c : ascii) : bool :=
  (48 <=? nat_of_ascii c)%nat && (nat_of_ascii c <=? 57)%nat.

Definition digit_of_char (c : ascii) : Z := Z.of_nat (nat_of_ascii c) - 48.

Fixpoint all_digits (s : string) : bool :=
  match s with
  | EmptyString => true
  | String c s' => is_digit c && all_digits s'
  end.

(** Value of a string of decimal digits, most significant digit first. *)
Fixpoint decimal_value_from (acc : Z) (s : string) : Z :=
  match s with
  | EmptyString => acc
  | String c s' => decimal_value_from (10 * acc + digit_of_char c) s'
  end.

Definition decimal_value (s : string) : Z := decimal_value_from 0 s.

(** Decimal digits of [n], least significant first; at least one digit. *)
Fixpoint digits_le (fuel : nat) (n : Z) : list Z :=
  match fuel with
  | O => []
  | S fuel' =>
      (n mod 10) :: (if n / 10 =? 0 then [] else digits_le fuel' (n / 10))
  end.

(** The [%u] conversion: the decimal digits of an unsigned number, most
    significant first, no sign, no leading zero (a single ["0"] for zero).
    The fuel exceeds the number of digits of [n]. *)
Definition utoa (n : Z) : list ascii :=
  map digit_to_char (rev (digits_le (S (Z.to_nat (Z.log2 n))) n)).

(** [sprintf(buf, "%0*u", width, number)]: the digits of [number], padded on
    the left with zeros up to [width] characters, never truncated.  A
    negative [width] argument is read by [printf] as the [-] flag with the
    width negated, and [-] overrides [0]: the digits are then padded on the
    right with spaces. *)
Definition sprintf_0u (width number : Z) : string :=
  let digits := utoa number in
  if 0 <=? width
  then string_of_list_ascii
         (repeat "0"%char (Z.to_nat width - List.length digits) ++ digits)
  else string_of_list_ascii
         (digits ++ repeat " "%char (Z.to_nat (- width) - List.length digits)).

(** ** Outcomes and the buffer of [sprintf] *)

(** What a call leaves: a value, or a write past the end of a buffer,
    after which C++ defines nothing.  The second case records the size the
    buffer was declared with and the characters [sprintf] was storing. *)
Inductive Outcome (A : Type) : Type :=
| Defined (a : A)
| OutOfBounds (capacity : Z) (written : string).

Arguments Defined {A} a.
Arguments OutOfBounds {A} capacity written.

Definition bindOutcome {A B : Type} (o : Outcome A) (k : A -> Outcome B)
    : Outcome B :=
  match o with
  | Defined a => k a
  | OutOfBounds capacity written => OutOfBounds capacity written
  end.

Notation "x <- o ;; k" := (bindOutcome o (fun x => k))
  (at level 61, o at next level, right associativity).

(** [sprintf] stores the formatted characters and a terminating null
    character in the buffer, and [string(buf)] reads the characters up to
    the terminator.  With [capacity] bytes in the buffer the store stays
    in bounds when the characters and the terminator fit. *)
Definition storeAndRead (capacity : Z) (text : string) : Outcome string :=
  if Z.of_nat (String.length text) + 1 <=? capacity then Defined text
  else OutOfBounds capacity text.

(** The characters [decimalStringWithPadding] has [sprintf] format: the
    number, converted to the parameter's type [uint32_t], under
    ["%0*u"] with the width [minLength]. *)
Definition decimalText (number minLength : Z) : string :=
  sprintf_0u minLength (to_uint32 number).

(** ** The payload and its constants *)

(** Modelled from the spec: [SetupPayload] is declared in [SetupPayload.h],
    which is not among the sources.  These are the fields the generator
    reads, all unsigned integers but the flag. *)
Record SetupPayload : Type := mkSetupPayload {
  requiresCustomFlow : bool;
  setUpPINCode : Z;
  discriminator : Z;
  vendorID : Z;
  productID : Z
}.

(** Modelled from the spec: the constants of [SetupPayload.h], which the
    generator names but does not define: the bit width of the PIN code
    ([W_pin]), the bit width of the discriminator that validation checks
    ([W_disc]), and the digit counts of the three decimal groups
    ([L_short], [L_vendor], [L_product]). *)
Class SetupPayloadConstants : Type := {
  kSetupPINCodeFieldLengthInBits : Z;
  kDiscriminatorFieldLengthInBits : Z;
  kManualSetupShortCodeCharLength : Z;
  kManualSetupVendorIdCharLength : Z;
  kManualSetupProductIdCharLength : Z
}.

Definition newline : string := String (ascii_of_nat 10) EmptyString.

Section ManualSetupPayloadGenerator.

Context {K : SetupPayloadConstants}.

(** Modelled from the spec: [SetupPayload::isValidManualCode] is defined
    outside the sources.  Encoding is refused when
    [discriminator >= 2^W_disc] or [setUpPINCode >= 2^W_pin]. *)
Definition isValidManualCode (payload : SetupPayload) : bool :=
  negb (2 ^ kDiscriminatorFieldLengthInBits <=? discriminator payload)
  && negb (2 ^ kSetupPINCodeFieldLengthInBits <=? setUpPINCode payload).

(** [static uint32_t shortPayloadRepresentation(SetupPayload payload)].
    [result] is a [uint32_t]: every [|=] stores the value converted back to
    32 bits.  The shifts are taken on the integers and reduced by that
    conversion; for a shift count below 32 (a PIN code width of at most 30
    bits) that is what the shift of a 32-bit operand leaves, also when bits
    of the operand are shifted out.  C++ leaves larger shift counts
    undefined. *)
Definition shortPayloadRepresentation (payload : SetupPayload) : Z :=
  let offset := 1 in
  let result := if requiresCustomFlow payload then 1 else 0 in
  let result := to_uint32 (Z.lor result (Z.shiftl (setUpPINCode payload) offset)) in
  let offset := offset + kSetupPINCodeFieldLengthInBits in
  let result := to_uint32 (Z.lor result (Z.shiftl (discriminator payload) offset)) in
  result.

(** [static string decimalStringWithPadding(uint32_t number, int minLength)].
    The argument is converted to the parameter's type [uint32_t]; [buf] is
    declared with [minLength] bytes; [sprintf] formats the number and
    stores the characters and the terminator in [buf]; the result is the
    string read from [buf]. *)
Definition decimalStringWithPadding (number minLength : Z) : Outcome string :=
  let number := to_uint32 number in
  let buf := minLength in
  storeAndRead buf (sprintf_0u minLength number).

(** [CHIP_ERROR ManualSetupPayloadGenerator::payloadDecimalStringRepresentation
    (string & outDecimalString)].  The member [mSetupPayload], the
    out-parameter and the standard error stream are arguments; a call that
    returns leaves the status, the out-parameter and the error stream. *)
Definition payloadDecimalStringRepresentation
    (mSetupPayload : SetupPayload) (outDecimalString : string) (stderr : string)
    : Outcome (CHIP_ERROR * string * string) :=
  if negb (isValidManualCode mSetupPayload)
  then
    Defined
      (CHIP_ERROR_INVALID_ARGUMENT, outDecimalString,
       stderr ++ newline ++ "Failed encoding invalid payload" ++ newline)%string
  else
    let shortDecimal := shortPayloadRepresentation mSetupPayload in
    decimalString <-
      decimalStringWithPadding shortDecimal kManualSetupShortCodeCharLength ;;
    if requiresCustomFlow mSetupPayload
    then
      vendor <-
        decimalStringWithPadding (vendorID mSetupPayload)
          kManualSetupVendorIdCharLength ;;
      let decimalString := (decimalString ++ vendor)%string in
      product <-
        decimalStringWithPadding (productID mSetupPayload)
          kManualSetupProductIdCharLength ;;
      let decimalString := (decimalString ++ product)%string in
      let outDecimalString := decimalString in
      Defined (CHIP_NO_ERROR, outDecimalString, stderr)
    else
      let outDecimalString := decimalString in
      Defined (CHIP_NO_ERROR, outDecimalString, stderr).


End ManualSetupPayloadGenerator.

(** ** The layout the specification describes *)

(** The bit-packed value of the specification, low bits first: bit 0 is the
    custom-flow flag, the next [W_pin] bits hold the PIN code, the bits from
    [1 + W_pin] on hold the discriminator.  No width bounds the integer. *)
Definition bitPackedValue (W_pin : Z) (payload : SetupPayload) : Z :=
  (if requiresCustomFlow payload then 1 else 0)
  + setUpPINCode payload * 2 ^ 1
  + discriminator payload * 2 ^ (1 + W_pin).

(** The decimal rendering of an unsigned integer of any size, padded on the
    left with zeros to [width] digits. *)
Definition zeroPaddedDecimal (width : nat) (n : Z) : string :=
  let digits := utoa n in
  string_of_list_ascii (repeat "0"%char (width - List.length digits) ++ digits).

(** The widths of the specification's examples: [W_pin = 27], [W_disc = 12],
    [L_short = 11], [L_vendor = 5], [L_product = 5]. *)
Definition exampleConstants : SetupPayloadConstants := {|
  kSetupPINCodeFieldLengthInBits := 27;
  kDiscriminatorFieldLengthInBits := 12;
  kManualSetupShortCodeCharLength := 11;
  kManualSetupVendorIdCharLength := 5;
  kManualSetupProductIdCharLength := 5
|}.

(** Widths under which the three packed fields fill 32 bits exactly. *)
Definition wordConstants : SetupPayloadConstants := {|
  kSetupPINCodeFieldLengthInBits := 27;
  kDiscriminatorFieldLengthInBits := 4;
  kManualSetupShortCodeCharLength := 10;
  kManualSetupVendorIdCharLength := 5;
  kManualSetupProductIdCharLength := 5
|}.


Definition examplePayload : SetupPayload := {|
  requiresCustomFlow := false;
  setUpPINCode := 20202021;
  discriminator := 3840;
  vendorID := 0;
  productID := 0
|}.

Definition exampleCustomPayload : SetupPayload := {|
  requiresCustomFlow := true;
  setUpPINCode := 20202021;
  discriminator := 3840;
  vendorID := 9050;
  productID := 20043
|}.

(** Value of a list of decimal digits, least significant first. *)
Definition value_le (ds : list Z) : Z :=
  fold_right (fun d acc => d + 10 * acc) 0 ds.

(** The number fits the field width: [%0*u] then writes exactly
    [minLength] characters. *)
Definition fitsWidth (number minLength : Z) : Prop :=
  0 < minLength /\ to_uint32 number < 10 ^ minLength.



Definition withDiscriminator (d : Z) (payload : SetupPayload) : SetupPayload :=
  {| requiresCustomFlow := requiresCustomFlow payload;
     setUpPINCode := setUpPINCode payload;
     discriminator := d;
     vendorID := vendorID payload;
     productID := productID payload |}.

Definition withVendorProduct (v p : Z) (payload : SetupPayload) : SetupPayload :=
  {| requiresCustomFlow := requiresCustomFlow payload;
     setUpPINCode := setUpPINCode payload;
     discriminator := discriminator payload;
     vendorID := v;
     productID := p |}.

(** The expression the generator evaluates, on unbounded integers. *)
Definition packedExpression (W_pin : Z) (payload : SetupPayload) : Z :=
  Z.lor
    (Z.lor (if requiresCustomFlow payload then 1 else 0)
       (Z.shiftl (setUpPINCode payload) 1))
    (Z.shiftl (discriminator payload) (1 + W_pin)).

Definition oversizedDiscriminatorPayload : SetupPayload :=
  withDiscriminator 4096 examplePayload.

(* ================================================================== *)
(** * TLV traversal utilities *)

(** ** Elements and the element cursor *)

(** Modelled from the spec: the TLV element cursor ([TLVReader], declared in
    [CHIPTLV.h]) is not among the sources.  An element carries a tag and a
    type; a primitive element carries raw value bytes, a container a nested
    sequence of elements in document order.  [Malformed] stands for an
    encoding the cursor cannot decode (a truncated length, a length that
    exceeds the remaining buffer, an unterminated container): the cursor
    fails when it advances onto it, and nothing behind it is read. *)
Definition Tag : Type := Z.

Inductive TLVElementType : Type :=
| kTLVType_SignedInteger
| kTLVType_UnsignedInteger
| kTLVType_Boolean
| kTLVType_FloatingPointNumber
| kTLVType_UTF8String
| kTLVType_ByteString.

Inductive TLVContainerType : Type :=
| kTLVType_Structure
| kTLVType_Array
| kTLVType_List.

#[warnings="-register-all"]
Inductive TLVElement : Type :=
| Primitive (tag : Tag) (type : TLVElementType) (value : list Z)
| Container (tag : Tag) (type : TLVContainerType) (members : list TLVElement)
| Malformed.

(** Modelled from the spec: a cursor is the sequence of elements that
    remain in the container it reads, the current element first.  A copy
    of a cursor is a value of its own: it shares the document and none of
    the traversal state. *)
Definition TLVReader : Type := list TLVElement.

Definition GetTag (aReader : TLVReader) : option Tag :=
  match aReader with
  | Primitive tag _ _ :: _ => Some tag
  | Container tag _ _ :: _ => Some tag
  | _ => None
  end.

Fixpoint malformedElement (e : TLVElement) : bool :=
  match e with
  | Primitive _ _ _ => false
  | Container _ _ members => existsb malformedElement members
  | Malformed => true
  end.

(** The stream contains a malformed encoding, at any depth. *)
Definition malformedStream (l : list TLVElement) : bool :=
  existsb malformedElement l.

Definition wellFormed (l : list TLVElement) : Prop :=
  malformedStream l = false.

(** Induction over an element and, for a container, all its members. *)
Section TLVElement_nested_ind.

Variable P : TLVElement -> Prop.
Hypothesis P_Primitive : forall tag type value, P (Primitive tag type value).
Hypothesis P_Container :
  forall tag type members, Forall P members -> P (Container tag type members).
Hypothesis P_Malformed : P Malformed.

Fixpoint TLVElement_nested_ind (e : TLVElement) : P e :=
  match e with
  | Primitive tag type value => P_Primitive tag type value
  | Container tag type members =>
      P_Container tag type members
        ((fix all (l : list TLVElement) : Forall P l :=
            match l with
            | [] => Forall_nil P
            | x :: rest => Forall_cons x (TLVElement_nested_ind x) (all rest)
            end) members)
  | Malformed => P_Malformed
  end.

End TLVElement_nested_ind.

(** ** Iterate, Count, Find *)

(** The handler type [IterateHandler]: a function of the cursor
    ([const TLVReader &aReader]), the depth ([size_t aDepth]) and the
    caller's context ([aContext]) that returns a [CHIP_ERROR]; the context
    the handler may update is passed in and returned. *)
Definition IterateHandler (Ctx : Type) : Type :=
  TLVReader -> nat -> Ctx -> CHIP_ERROR * Ctx.

(** The loop over the elements that remain at one level: [visit] handles
    the current element, the cursor then moves to the next one; a status
    other than success ends the loop, the end of the stream is success. *)
Fixpoint walkLevel {Ctx : Type}
    (visit : TLVElement -> list TLVElement -> Ctx -> CHIP_ERROR * Ctx)
    (l : list TLVElement) (aContext : Ctx) {struct l} : CHIP_ERROR * Ctx :=
  match l with
  | [] => (CHIP_NO_ERROR, aContext)
  | x :: rest =>
      let (retval, aContext) := visit x rest aContext in
      if isSuccess retval then walkLevel visit rest aContext
      else (retval, aContext)
  end.

Section Traversal.

Context {Ctx : Type}.
Variable aHandler : IterateHandler Ctx.
Variable aRecurse : bool.

(** Modelled from the spec: the definitions of [Iterate], [Count] and
    [Find] are not among the sources, only their declarations.  The walk
    visits the current element; a failure status of the visitor ends the
    whole traversal with that status.  With [aRecurse] the members of a
    container are visited one level deeper before the walk moves past the
    container; without it the members are skipped, and the cursor still
    fails on a malformed encoding among them.  Advancing onto a malformed
    encoding is a decode failure. *)
Fixpoint IterateElement (aDepth : nat) (e : TLVElement)
    (following : list TLVElement) (aContext : Ctx) {struct e}
    : CHIP_ERROR * Ctx :=
  match e with
  | Malformed => (CHIP_ERROR_TLV_DECODE, aContext)
  | Primitive _ _ _ => aHandler (e :: following) aDepth aContext
  | Container _ _ members =>
      let (retval, aContext) := aHandler (e :: following) aDepth aContext in
      if negb (isSuccess retval) then (retval, aContext)
      else if aRecurse then
        walkLevel (IterateElement (S aDepth)) members aContext
      else if malformedStream members then (CHIP_ERROR_TLV_DECODE, aContext)
      else (CHIP_NO_ERROR, aContext)
  end.

(** The walk over the elements that remain at one level. *)
Definition IterateStream (aDepth : nat) (l : list TLVElement) (aContext : Ctx)
    : CHIP_ERROR * Ctx :=
  walkLevel (IterateElement aDepth) l aContext.

End Traversal.

(** [CHIP_ERROR Iterate(const TLVReader &aReader, IterateHandler aHandler,
    aContext, const bool aRecurse)]: the walk from the cursor's
    position, at depth 0. *)
Definition Iterate {Ctx : Type} (aReader : TLVReader)
    (aHandler : IterateHandler Ctx) (aContext : Ctx) (aRecurse : bool)
    : CHIP_ERROR * Ctx :=
  IterateStream aHandler aRecurse 0%nat aReader aContext.

(** The visitor of [Count]: always continues, increments the counter. *)
Definition CountHandler : IterateHandler nat :=
  fun _ _ aCount => (CHIP_NO_ERROR, S aCount).

(** [CHIP_ERROR Count(const TLVReader &aReader, size_t &aCount,
    const bool aRecurse)]. *)
Definition Count (aReader : TLVReader) (aRecurse : bool) : CHIP_ERROR * nat :=
  Iterate aReader CountHandler 0%nat aRecurse.

(** The visitor of [Find]: on a match it captures a copy of the cursor and
    asks the walk to stop. *)
Definition FindHandler (aTag : Tag) : IterateHandler (option TLVReader) :=
  fun aReader _ aResult =>
    match GetTag aReader with
    | Some tag =>
        if tag =? aTag then (CHIP_ERROR_STOP_ITERATION, Some aReader)
        else (CHIP_NO_ERROR, aResult)
    | None => (CHIP_NO_ERROR, aResult)
    end.

(** [CHIP_ERROR Find(const TLVReader &aReader, const uint64_t &aTag,
    TLVReader &aResult, const bool aRecurse)].  The result cursor is
    [Some] once populated; found and not found are both success. *)
Definition Find (aReader : TLVReader) (aTag : Tag) (aRecurse : bool)
    : CHIP_ERROR * option TLVReader :=
  let (retval, aResult) := Iterate aReader (FindHandler aTag) None aRecurse in
  match retval with
  | CHIP_ERROR_STOP_ITERATION => (CHIP_NO_ERROR, aResult)
  | _ => (retval, aResult)
  end.

(** ** Observing the visitor *)

(** One call of the visitor: the cursor and depth it was given and the
    status it returned. *)
Record Invocation : Type := mkInvocation {
  inv_reader : TLVReader;
  inv_depth : nat;
  inv_status : CHIP_ERROR
}.

(** A visitor that behaves as [h] and appends each of its calls to a log
    kept in the context. *)
Definition recording {Ctx : Type} (h : IterateHandler Ctx)
    : IterateHandler (list Invocation * Ctx) :=
  fun aReader aDepth st =>
    let (retval, c) := h aReader aDepth (snd st) in
    (retval, (fst st ++ [mkInvocation aReader aDepth retval], c)).

(** The no-op visitor: always continues. *)
Definition NoOpHandler : IterateHandler unit :=
  fun _ _ c => (CHIP_NO_ERROR, c).

(** A visitor that fails with [status] on its [n]-th call (counted from 1);
    the context counts the calls. *)
Definition abortAtHandler (n : nat) (status : CHIP_ERROR) : IterateHandler nat :=
  fun _ _ calls =>
    if (S calls =? n)%nat then (status, S calls) else (CHIP_NO_ERROR, S calls).

(** ** Document order *)

(** The cursor positions a traversal reaches, in document order: every
    element of the level, each followed, with [recurse], by the positions
    inside it. *)
Fixpoint positions (inside : TLVElement -> list TLVElement -> list TLVReader)
    (l : list TLVElement) {struct l} : list TLVReader :=
  match l with
  | [] => []
  | x :: rest => inside x rest ++ positions inside rest
  end.

Fixpoint reachableFrom (recurse : bool) (e : TLVElement)
    (following : list TLVElement) {struct e} : list TLVReader :=
  (e :: following)
  :: match e with
     | Container _ _ members =>
         if recurse then positions (reachableFrom recurse) members else []
     | _ => []
     end.

Definition reachable (recurse : bool) (l : list TLVElement) : list TLVReader :=
  positions (reachableFrom recurse) l.

(** ** The order of visits *)

(** The calls a traversal makes to a visitor that always continues, as
    cursor and depth, and the status the traversal ends with: success at
    the end of the stream, a decode failure at a malformed encoding. *)
Fixpoint scheduleLevel
    (visit : TLVElement -> list TLVElement -> list (TLVReader * nat) * CHIP_ERROR)
    (l : list TLVElement) {struct l} : list (TLVReader * nat) * CHIP_ERROR :=
  match l with
  | [] => ([], CHIP_NO_ERROR)
  | x :: rest =>
      let (calls, status) := visit x rest in
      if isSuccess status then
        let (calls', status') := scheduleLevel visit rest in
        (calls ++ calls', status')
      else (calls, status)
  end.

Fixpoint scheduleFrom (recurse : bool) (depth : nat) (e : TLVElement)
    (following : list TLVElement) {struct e}
    : list (TLVReader * nat) * CHIP_ERROR :=
  match e with
  | Malformed => ([], CHIP_ERROR_TLV_DECODE)
  | Primitive _ _ _ => ([(e :: following, depth)], CHIP_NO_ERROR)
  | Container _ _ members =>
      if recurse then
        let (calls, status) :=
          scheduleLevel (scheduleFrom recurse (S depth)) members in
        ((e :: following, depth) :: calls, status)
      else
        ([(e :: following, depth)],
         if malformedStream members then CHIP_ERROR_TLV_DECODE
         else CHIP_NO_ERROR)
  end.

Definition schedule (recurse : bool) (depth : nat) (l : list TLVElement)
    : list (TLVReader * nat) * CHIP_ERROR :=
  scheduleLevel (scheduleFrom recurse depth) l.

(** The visitor called on each scheduled position in turn, up to its first
    failure status. *)
Fixpoint runVisitor {Ctx : Type} (h : IterateHandler Ctx)
    (calls : list (TLVReader * nat)) (aContext : Ctx) {struct calls}
    : CHIP_ERROR * Ctx :=
  match calls with
  | [] => (CHIP_NO_ERROR, aContext)
  | (aReader, aDepth) :: calls' =>
      let (retval, aContext) := h aReader aDepth aContext in
      if isSuccess retval then runVisitor h calls' aContext
      else (retval, aContext)
  end.

(** A schedule carried out with a visitor: the visitor's failure status if
    it fails, the status the schedule ends with otherwise. *)
Definition finish {Ctx : Type} (h : IterateHandler Ctx)
    (plan : list (TLVReader * nat) * CHIP_ERROR) (aContext : Ctx)
    : CHIP_ERROR * Ctx :=
  let (retval, aContext) := runVisitor h (fst plan) aContext in
  if isSuccess retval then (snd plan, aContext) else (retval, aContext).

Definition hasTag (aTag : Tag) (aReader : TLVReader) : bool :=
  match GetTag aReader with
  | Some tag => tag =? aTag
  | None => false
  end.

(** ** Example documents *)

Definition leaf (tag : Tag) : TLVElement :=
  Primitive tag kTLVType_UnsignedInteger [tag].

Definition exampleDocument : TLVReader :=
  [ leaf 1;
    Container 2 kTLVType_Structure [leaf 3; Container 4 kTLVType_Array [leaf 5]; leaf 3];
    leaf 6 ].



(* ================================================================== *)
(** * Properties of the manual setup payload generator *)

(** ** 32-bit arithmetic *)

Lemma testbit_to_uint32 (a i : Z) :
  Z.testbit (to_uint32 a) i = (i <? 32) && Z.testbit a i.
Proof. unfold to_uint32. apply Z.testbit_mod_pow2. lia. Qed.

Lemma to_uint32_range (a : Z) : 0 <= to_uint32 a < 2 ^ 32.
Proof. unfold to_uint32. apply Z.mod_pos_bound. lia. Qed.

Lemma to_uint32_small (a : Z) : 0 <= a < 2 ^ 32 -> to_uint32 a = a.
Proof. intros H. unfold to_uint32. apply Z.mod_small. exact H. Qed.

Lemma to_uint32_lor_absorb (a b : Z) :
  to_uint32 (Z.lor (to_uint32 a) b) = to_uint32 (Z.lor a b).
Proof.
  apply Z.bits_inj'. intros i _.
  rewrite !testbit_to_uint32, !Z.lor_spec, testbit_to_uint32.
  destruct (i <? 32); reflexivity.
Qed.

Lemma shortPayloadRepresentation_packed {K : SetupPayloadConstants} payload :
  shortPayloadRepresentation payload
  = to_uint32 (packedExpression kSetupPINCodeFieldLengthInBits payload).
Proof.
  unfold shortPayloadRepresentation, packedExpression.
  apply to_uint32_lor_absorb.
Qed.

(** Bits that do not overlap add up. *)
Lemma lor_shiftl_add (a b k : Z) :
  0 <= k -> 0 <= a < 2 ^ k -> Z.lor a (Z.shiftl b k) = a + b * 2 ^ k.
Proof.
  intros Hk Ha.
  assert (Hland : Z.land a (Z.shiftl b k) = 0).
  { apply Z.bits_inj'. intros i Hi.
    rewrite Z.land_spec, Z.bits_0.
    destruct (Z.lt_ge_cases i k) as [Hlt | Hge].
    - rewrite Z.shiftl_spec_low by exact Hlt. apply andb_false_r.
    - replace a with (a mod 2 ^ k) by (apply Z.mod_small; exact Ha).
      rewrite Z.mod_pow2_bits_high by lia. reflexivity. }
  pose proof (Z.add_lor_land a (Z.shiftl b k)) as Hadd.
  rewrite Hland, Z.add_0_r in Hadd.
  rewrite Hadd, Z.shiftl_mul_pow2 by exact Hk. reflexivity.
Qed.

Lemma packedExpression_bitPacked (W_pin : Z) payload :
  0 <= W_pin ->
  0 <= setUpPINCode payload < 2 ^ W_pin ->
  packedExpression W_pin payload = bitPackedValue W_pin payload.
Proof.
  intros HW Hpin. unfold packedExpression, bitPackedValue.
  assert (Hflag : 0 <= (if requiresCustomFlow payload then 1 else 0) < 2 ^ 1)
    by (destruct (requiresCustomFlow payload); simpl; lia).
  rewrite (lor_shiftl_add _ (setUpPINCode payload) 1) by (lia || exact Hflag).
  apply lor_shiftl_add; [lia |].
  rewrite Z.pow_add_r by lia.
  destruct (requiresCustomFlow payload); lia.
Qed.

(** The bits of the bit-packed value are laid out as the specification
    says: the flag at bit 0, the PIN code from bit 1, the discriminator
    from bit [1 + W_pin]. *)
Lemma bitPackedValue_layout (W_pin : Z) payload :
  0 <= W_pin ->
  0 <= setUpPINCode payload < 2 ^ W_pin ->
  Z.testbit (bitPackedValue W_pin payload) 0 = requiresCustomFlow payload
  /\ (forall i, 1 <= i <= W_pin ->
        Z.testbit (bitPackedValue W_pin payload) i
        = Z.testbit (setUpPINCode payload) (i - 1))
  /\ (forall i, W_pin < i ->
        Z.testbit (bitPackedValue W_pin payload) i
        = Z.testbit (discriminator payload) (i - (1 + W_pin))).
Proof.
  intros HW Hpin.
  rewrite <- packedExpression_bitPacked by assumption.
  unfold packedExpression.
  assert (Hflag : forall i, 1 <= i ->
             Z.testbit (if requiresCustomFlow payload then 1 else 0) i = false).
  { intros i Hi. destruct (requiresCustomFlow payload).
    - replace 1 with (1 mod 2 ^ 1) by reflexivity.
      apply Z.mod_pow2_bits_high. lia.
    - apply Z.bits_0. }
  split; [| split].
  - rewrite !Z.lor_spec, !Z.shiftl_spec by lia.
    rewrite (Z.testbit_neg_r (setUpPINCode payload)) by lia.
    rewrite (Z.testbit_neg_r (discriminator payload)) by lia.
    destruct (requiresCustomFlow payload); reflexivity.
  - intros i Hi. rewrite !Z.lor_spec, !Z.shiftl_spec by lia.
    rewrite Hflag by lia.
    rewrite (Z.testbit_neg_r (discriminator payload)) by lia.
    rewrite orb_false_r. reflexivity.
  - intros i Hi. rewrite !Z.lor_spec, !Z.shiftl_spec by lia.
    rewrite Hflag by lia.
    replace (setUpPINCode payload) with (setUpPINCode payload mod 2 ^ W_pin)
      by (apply Z.mod_small; exact Hpin).
    rewrite Z.mod_pow2_bits_high by lia. reflexivity.
Qed.

Lemma isValidManualCode_bounds {K : SetupPayloadConstants} payload :
  isValidManualCode payload = true ->
  discriminator payload < 2 ^ kDiscriminatorFieldLengthInBits
  /\ setUpPINCode payload < 2 ^ kSetupPINCodeFieldLengthInBits.
Proof.
  unfold isValidManualCode. intros H.
  apply andb_true_iff in H. destruct H as [H1 H2].
  apply negb_true_iff in H1, H2.
  apply Z.leb_gt in H1, H2. split; assumption.
Qed.

Lemma pow2_pos_exponent (w x : Z) : 0 <= x < 2 ^ w -> 0 <= w.
Proof.
  intros H. destruct (Z.lt_ge_cases w 0) as [Hneg | Hpos]; [| exact Hpos].
  rewrite Z.pow_neg_r in H by exact Hneg. lia.
Qed.

(** ** The short representation *)

(** C3. [shortPayloadRepresentation] computes in 32-bit unsigned
    arithmetic: for every payload the result is the packed expression
    [flag | (setUpPINCode << 1) | (discriminator << (1 + W_pin))] reduced
    modulo [2^32]; the result lies below [2^32], so every packed bit at
    position 32 or above is lost; and with [W_pin = 27] the result depends
    on the discriminator through its low 4 bits only. *)
Theorem shortPayloadRepresentation_uint32 :
  (forall (K : SetupPayloadConstants) (payload : SetupPayload),
      shortPayloadRepresentation payload
      = Z.lor
          (Z.lor (if requiresCustomFlow payload then 1 else 0)
             (Z.shiftl (setUpPINCode payload) 1))
          (Z.shiftl (discriminator payload)
             (1 + kSetupPINCodeFieldLengthInBits))
        mod 2 ^ 32
      /\ 0 <= shortPayloadRepresentation payload < 2 ^ 32)
  /\ (forall (W_disc L_short L_vendor L_product : Z) (payload : SetupPayload),
         let K := Build_SetupPayloadConstants 27 W_disc L_short L_vendor L_product in
         @shortPayloadRepresentation K payload
         = @shortPayloadRepresentation K
             (withDiscriminator (discriminator payload mod 2 ^ 4) payload)).
Proof.
  split.
  - intros K payload. rewrite shortPayloadRepresentation_packed. split.
    + reflexivity.
    + apply to_uint32_range.
  - intros W_disc L_short L_vendor L_product payload K.
    rewrite !shortPayloadRepresentation_packed.
    unfold packedExpression, K; cbn [kSetupPINCodeFieldLengthInBits
      withDiscriminator requiresCustomFlow setUpPINCode discriminator].
    apply Z.bits_inj'. intros i Hi.
    rewrite !testbit_to_uint32, !Z.lor_spec.
    destruct (Z.ltb_spec i 32) as [Hlt | Hge]; [| reflexivity].
    cbn [andb]. f_equal.
    change (1 + 27) with 28.
    rewrite !Z.shiftl_spec by exact Hi.
    destruct (Z.lt_ge_cases i 28) as [Hlow | Hhigh].
    + rewrite !Z.testbit_neg_r by lia. reflexivity.
    + rewrite Z.mod_pow2_bits_low by lia. reflexivity.
Qed.

(** C2, as the code has it.  For every payload valid for manual-code
    encoding, with unsigned fields, the short representation is the
    bit-packed value (bit 0 the custom-flow flag, then [W_pin] bits of
    PIN code, then [W_disc] bits of discriminator) reduced modulo [2^32];
    it is the bit-packed value itself whenever the three fields fit 32
    bits, [1 + W_pin + W_disc <= 32]. *)
Theorem shortPayloadRepresentation_bit_packed :
  forall (K : SetupPayloadConstants) (payload : SetupPayload),
    isValidManualCode payload = true ->
    0 <= setUpPINCode payload ->
    0 <= discriminator payload ->
    shortPayloadRepresentation payload
    = bitPackedValue kSetupPINCodeFieldLengthInBits payload mod 2 ^ 32
    /\ (1 + kSetupPINCodeFieldLengthInBits + kDiscriminatorFieldLengthInBits <= 32 ->
        shortPayloadRepresentation payload
        = bitPackedValue kSetupPINCodeFieldLengthInBits payload).
Proof.
  intros K payload Hvalid Hpin Hdisc.
  destruct (isValidManualCode_bounds payload Hvalid) as [Hd Hp].
  assert (HWp : 0 <= kSetupPINCodeFieldLengthInBits)
    by (apply (pow2_pos_exponent _ (setUpPINCode payload)); lia).
  assert (HWd : 0 <= kDiscriminatorFieldLengthInBits)
    by (apply (pow2_pos_exponent _ (discriminator payload)); lia).
  rewrite shortPayloadRepresentation_packed.
  rewrite packedExpression_bitPacked by lia.
  split; [reflexivity |].
  intros Hfit. apply to_uint32_small.
  unfold bitPackedValue.
  set (P := kSetupPINCodeFieldLengthInBits) in *.
  set (D := kDiscriminatorFieldLengthInBits) in *.
  assert (Hpow : 2 ^ (1 + P) * 2 ^ D <= 2 ^ 32).
  { rewrite <- Z.pow_add_r by lia. apply Z.pow_le_mono_r; lia. }
  assert (Hp1 : 2 ^ (1 + P) = 2 * 2 ^ P) by (rewrite Z.pow_add_r by lia; reflexivity).
  assert (H2P : 0 < 2 ^ P) by (apply Z.pow_pos_nonneg; lia).
  assert (Hb : 0 <= (if requiresCustomFlow payload then 1 else 0) <= 1)
    by (destruct (requiresCustomFlow payload); lia).
  change (2 ^ 1) with 2.
  split; [nia |].
  assert (discriminator payload * 2 ^ (1 + P) <= (2 ^ D - 1) * 2 ^ (1 + P)) by nia.
  nia.
Qed.

(** The theorem at the 32-bit widths: PIN code 20202021 and discriminator
    10, with [W_pin = 27] and [W_disc = 4]. *)
Lemma shortPayloadRepresentation_bit_packed_witness :
  let payload := withDiscriminator 10 examplePayload in
  @shortPayloadRepresentation wordConstants payload
  = bitPackedValue 27 payload mod 2 ^ 32
  /\ @shortPayloadRepresentation wordConstants payload = bitPackedValue 27 payload.
Proof.
  intros payload.
  assert (Hpin : 0 <= setUpPINCode payload) by (simpl; lia).
  assert (Hdisc : 0 <= discriminator payload) by (simpl; lia).
  destruct (shortPayloadRepresentation_bit_packed wordConstants payload
              eq_refl Hpin Hdisc) as [Hmod Hfit].
  split; [exact Hmod | apply Hfit; simpl; lia].
Defined.

(** C2 fails as stated: with [W_pin = 27] and [W_disc = 12] the payload of
    the specification's example is valid, and its short representation,
    40404042, is not the bit-packed value 1030832555082: the discriminator
    3840 has no bit among its low four. *)
Lemma shortPayloadRepresentation_not_bit_packed :
  @isValidManualCode exampleConstants examplePayload = true
  /\ setUpPINCode examplePayload < 2 ^ 27
  /\ discriminator examplePayload < 2 ^ 12
  /\ @shortPayloadRepresentation exampleConstants examplePayload = 40404042
  /\ bitPackedValue 27 examplePayload = 1030832555082
  /\ @shortPayloadRepresentation exampleConstants examplePayload
     <> bitPackedValue 27 examplePayload.
Proof.
  repeat split; try reflexivity. vm_compute. discriminate.
Qed.

(** ** Decimal rendering *)

Lemma string_length_of_list (l : list ascii) :
  String.length (string_of_list_ascii l) = List.length l.
Proof. induction l as [| c l IH]; simpl; [| rewrite IH]; reflexivity. Qed.



Lemma all_digits_of_list (l : list ascii) :
  Forall (fun c => is_digit c = true) l ->
  all_digits (string_of_list_ascii l) = true.
Proof.
  induction 1 as [| c l Hc _ IH]; simpl; [reflexivity |].
  rewrite Hc, IH. reflexivity.
Qed.

Lemma digit_cases (d : Z) :
  0 <= d < 10 ->
  d = 0 \/ d = 1 \/ d = 2 \/ d = 3 \/ d = 4 \/ d = 5 \/ d = 6 \/ d = 7
  \/ d = 8 \/ d = 9.
Proof. lia. Qed.

Lemma is_digit_digit_to_char (d : Z) :
  0 <= d < 10 -> is_digit (digit_to_char d) = true.
Proof.
  intros H. destruct (digit_cases d H) as [E | [E | [E | [E | [E | [E | [E | [E | [E | E]]]]]]]]];
    subst d; reflexivity.
Qed.

Lemma digit_of_char_digit_to_char (d : Z) :
  0 <= d < 10 -> digit_of_char (digit_to_char d) = d.
Proof.
  intros H. destruct (digit_cases d H) as [E | [E | [E | [E | [E | [E | [E | [E | [E | E]]]]]]]]];
    subst d; reflexivity.
Qed.

Lemma digits_le_range (fuel : nat) (n : Z) :
  Forall (fun d => 0 <= d < 10) (digits_le fuel n).
Proof.
  revert n. induction fuel as [| fuel IH]; intros n; simpl.
  - constructor.
  - constructor.
    + apply Z.mod_pos_bound. lia.
    + destruct (n / 10 =? 0); [constructor | apply IH].
Qed.

Lemma digits_le_nonempty (fuel : nat) (n : Z) :
  (1 <= List.length (digits_le (S fuel) n))%nat.
Proof. simpl. lia. Qed.


(** With fuel for every digit, the digits are those of [n]. *)
Lemma digits_le_value (fuel : nat) :
  forall n : Z, 0 <= n < 10 ^ Z.of_nat fuel -> value_le (digits_le fuel n) = n.
Proof.
  induction fuel as [| fuel IH]; intros n Hn.
  - simpl in *. lia.
  - cbn [digits_le]. unfold value_le. cbn [fold_right]. fold (value_le).
    rewrite Nat2Z.inj_succ, Z.pow_succ_r in Hn by lia.
    pose proof (Z.div_mod n 10 ltac:(lia)) as Hdm.
    destruct (Z.eqb_spec (n / 10) 0) as [Hz | Hnz].
    + simpl. lia.
    + change (fold_right (fun d acc : Z => d + 10 * acc) 0 (digits_le fuel (n / 10)))
        with (value_le (digits_le fuel (n / 10))).
      rewrite IH; [lia |]. split.
      * apply Z.div_pos; lia.
      * apply Z.div_lt_upper_bound; lia.
Qed.

Lemma utoa_fuel_enough (n : Z) :
  0 <= n -> n < 10 ^ Z.of_nat (S (Z.to_nat (Z.log2 n))).
Proof.
  intros Hn.
  destruct (Z.eq_dec n 0) as [-> | Hnz].
  - simpl. lia.
  - pose proof (Z.log2_nonneg n) as Hl.
    pose proof (Z.log2_spec n ltac:(lia)) as [_ Hup].
    rewrite Nat2Z.inj_succ, Z2Nat.id by exact Hl.
    eapply Z.lt_le_trans; [exact Hup |].
    apply Z.pow_le_mono_l. lia.
Qed.

Lemma decimal_value_from_append (s t : string) :
  forall acc, decimal_value_from acc (s ++ t)
              = decimal_value_from (decimal_value_from acc s) t.
Proof. induction s as [| c s IH]; intros acc; simpl; [| rewrite IH]; reflexivity. Qed.

Lemma string_of_list_ascii_app (l m : list ascii) :
  string_of_list_ascii (l ++ m)
  = (string_of_list_ascii l ++ string_of_list_ascii m)%string.
Proof. induction l as [| c l IH]; simpl; [| rewrite IH]; reflexivity. Qed.

Lemma decimal_value_from_digits (ds : list Z) :
  Forall (fun d => 0 <= d < 10) ds ->
  forall acc,
    decimal_value_from acc (string_of_list_ascii (map digit_to_char (rev ds)))
    = acc * 10 ^ Z.of_nat (List.length ds) + value_le ds.
Proof.
  induction 1 as [| d ds Hd _ IH]; intros acc.
  - simpl. lia.
  - cbn [rev]. rewrite map_app, string_of_list_ascii_app, decimal_value_from_append.
    rewrite IH. cbn [map string_of_list_ascii decimal_value_from].
    rewrite digit_of_char_digit_to_char by exact Hd.
    unfold value_le. cbn [fold_right List.length].
    rewrite Nat2Z.inj_succ, Z.pow_succ_r by lia.
    fold (value_le ds). unfold value_le. lia.
Qed.

Lemma decimal_value_from_zeros (k : nat) (s : string) :
  decimal_value_from 0 (string_of_list_ascii (repeat "0"%char k) ++ s)
  = decimal_value_from 0 s.
Proof. induction k as [| k IH]; simpl; [reflexivity | exact IH]. Qed.

(** [%u] writes digits only, and they read back as the number. *)
Lemma utoa_digits (n : Z) : Forall (fun c => is_digit c = true) (utoa n).
Proof.
  unfold utoa. apply Forall_map. apply Forall_rev.
  eapply Forall_impl; [| apply digits_le_range].
  intros d Hd. apply is_digit_digit_to_char. exact Hd.
Qed.

Lemma utoa_value (n : Z) :
  0 <= n -> decimal_value (string_of_list_ascii (utoa n)) = n.
Proof.
  intros Hn. unfold decimal_value, utoa.
  rewrite decimal_value_from_digits by apply digits_le_range.
  rewrite digits_le_value; [lia |].
  split; [exact Hn | apply utoa_fuel_enough; exact Hn].
Qed.


(** The text formatted for a width that is not negative: decimal digits,
    at least [minLength] of them, that read back as the number converted
    to [uint32_t]. *)
Lemma decimalText_digits (number minLength : Z) :
  0 <= minLength ->
  all_digits (decimalText number minLength) = true
  /\ decimal_value (decimalText number minLength) = to_uint32 number
  /\ minLength <= Z.of_nat (String.length (decimalText number minLength)).
Proof.
  intros HL. unfold decimalText, sprintf_0u.
  destruct (Z.leb_spec 0 minLength) as [_ | Hneg]; [| lia].
  repeat split.
  - apply all_digits_of_list. apply Forall_app. split.
    + apply Forall_forall. intros c Hc. apply repeat_spec in Hc. subst c. reflexivity.
    + apply utoa_digits.
  - unfold decimal_value. rewrite string_of_list_ascii_app, decimal_value_from_zeros.
    apply utoa_value. apply to_uint32_range.
  - rewrite string_length_of_list, length_app, repeat_length. lia.
Qed.

(** For a width that is not negative the text is the zero-padded decimal
    rendering of the number converted to [uint32_t]. *)
Lemma decimalText_zeroPadded (number minLength : Z) :
  0 <= minLength ->
  decimalText number minLength
  = zeroPaddedDecimal (Z.to_nat minLength) (to_uint32 number).
Proof.
  intros HL. unfold decimalText, sprintf_0u, zeroPaddedDecimal.
  destruct (Z.leb_spec 0 minLength) as [_ | Hneg]; [reflexivity | lia].
Qed.


(** Ten digits hold every [uint32_t]. *)
Lemma fitsWidth_uint32 (number minLength : Z) :
  10 <= minLength -> fitsWidth number minLength.
Proof.
  intros HL. split; [lia |].
  pose proof (to_uint32_range number) as Hr.
  assert (H10 : 10 ^ 10 <= 10 ^ minLength) by (apply Z.pow_le_mono_r; lia).
  assert (2 ^ 32 < 10 ^ 10) by reflexivity.
  lia.
Qed.

(** Five digits hold every 16-bit number. *)
Lemma fitsWidth_uint16 (number minLength : Z) :
  0 <= number < 2 ^ 16 -> 5 <= minLength -> fitsWidth number minLength.
Proof.
  intros Hn HL. split; [lia |].
  rewrite to_uint32_small by (change (2 ^ 16) with 65536 in Hn; change (2 ^ 32) with 4294967296; lia).
  assert (H5 : 10 ^ 5 <= 10 ^ minLength) by (apply Z.pow_le_mono_r; lia).
  change (2 ^ 16) with 65536 in Hn. change (10 ^ 5) with 100000 in H5. lia.
Qed.




(** The text is never empty. *)
Lemma decimalText_nonempty (number minLength : Z) :
  (1 <= String.length (decimalText number minLength))%nat.
Proof.
  unfold decimalText, sprintf_0u.
  assert (Hd : (1 <= List.length (utoa (to_uint32 number)))%nat).
  { unfold utoa. rewrite length_map, length_rev. apply digits_le_nonempty. }
  destruct (0 <=? minLength);
    rewrite string_length_of_list, length_app; lia.
Qed.

(** ** The buffer *)

(** The characters and the terminator never fit the buffer: the text has
    at least [minLength] characters, and the buffer [minLength] bytes. *)
Lemma decimalText_exceeds_buffer (number minLength : Z) :
  minLength < Z.of_nat (String.length (decimalText number minLength)) + 1.
Proof.
  destruct (Z.lt_ge_cases minLength 0) as [Hneg | Hpos].
  - lia.
  - destruct (decimalText_digits number minLength Hpos) as [_ [_ Hmin]]. lia.
Qed.

Lemma decimalStringWithPadding_overrun (number minLength : Z) :
  decimalStringWithPadding number minLength
  = OutOfBounds minLength (decimalText number minLength).
Proof.
  unfold decimalStringWithPadding, storeAndRead.
  fold (decimalText number minLength).
  pose proof (decimalText_exceeds_buffer number minLength) as Hlen.
  destruct (Z.leb_spec (Z.of_nat (String.length (decimalText number minLength)) + 1)
              minLength) as [Hle | Hgt]; [lia | reflexivity].
Qed.

Lemma storeAndRead_in_bounds (capacity : Z) (text : string) :
  Z.of_nat (String.length text) + 1 <= capacity ->
  storeAndRead capacity text = Defined text.
Proof.
  intros H. unfold storeAndRead.
  destruct (Z.leb_spec (Z.of_nat (String.length text) + 1) capacity); [reflexivity | lia].
Qed.

Lemma payloadDecimalStringRepresentation_cases {K : SetupPayloadConstants}
    (payload : SetupPayload) (outDecimalString stderr : string) :
  payloadDecimalStringRepresentation payload outDecimalString stderr
  = if isValidManualCode payload
    then OutOfBounds kManualSetupShortCodeCharLength
           (decimalText (shortPayloadRepresentation payload)
              kManualSetupShortCodeCharLength)
    else Defined
           (CHIP_ERROR_INVALID_ARGUMENT, outDecimalString,
            (stderr ++ newline ++ "Failed encoding invalid payload" ++ newline)%string).
Proof.
  unfold payloadDecimalStringRepresentation.
  destruct (isValidManualCode payload); cbn [negb]; [| reflexivity].
  rewrite decimalStringWithPadding_overrun. reflexivity.
Qed.

(** ** The example of the specification *)



(** ** Invalid payloads *)

(** C4. For every payload that [isValidManualCode] rejects, the generator
    returns [CHIP_ERROR_INVALID_ARGUMENT] and the output string is the one
    passed in: nothing is written to it.  The diagnostic goes to the
    standard error stream. *)
Theorem payloadDecimalStringRepresentation_invalid :
  forall (K : SetupPayloadConstants) (payload : SetupPayload)
         (outDecimalString stderr : string),
    isValidManualCode payload = false ->
    payloadDecimalStringRepresentation payload outDecimalString stderr
    = Defined
        (CHIP_ERROR_INVALID_ARGUMENT, outDecimalString,
         (stderr ++ newline ++ "Failed encoding invalid payload" ++ newline)%string).
Proof.
  intros K payload outDecimalString stderr Hinvalid.
  unfold payloadDecimalStringRepresentation.
  rewrite Hinvalid. reflexivity.
Qed.

(** The theorem at a discriminator of 4096, one past the 12-bit range,
    with an output string already holding text. *)
Lemma payloadDecimalStringRepresentation_invalid_witness :
  @payloadDecimalStringRepresentation exampleConstants
     oversizedDiscriminatorPayload "previous"%string EmptyString
  = Defined
      (CHIP_ERROR_INVALID_ARGUMENT, "previous"%string,
       (newline ++ "Failed encoding invalid payload" ++ newline)%string).
Proof.
  apply (payloadDecimalStringRepresentation_invalid exampleConstants
           oversizedDiscriminatorPayload "previous"%string EmptyString).
  reflexivity.
Defined.

(** ** The decimal groups *)


(** C5 at the custom-flow payload of the specification (vendor ID 9050,
    product ID 20043, widths 11, 5 and 5): the claim has the call return
    the three groups one after the other; the code does not return them.
    The first call of [decimalStringWithPadding] declares [buf] with 11
    bytes and has [sprintf] store the 11 digits of the short
    representation and the terminator there, a write out of bounds. *)
Theorem payloadDecimalStringRepresentation_custom_flow_overrun :
  forall outDecimalString stderr : string,
    @payloadDecimalStringRepresentation exampleConstants exampleCustomPayload
      outDecimalString stderr
    = OutOfBounds 11 "00040404043"%string
    /\ Z.of_nat (String.length "00040404043") + 1 = 12
    /\ @payloadDecimalStringRepresentation exampleConstants exampleCustomPayload
         outDecimalString stderr
       <> Defined
            (CHIP_NO_ERROR, ("00040404043" ++ "09050" ++ "20043")%string, stderr).
Proof.
  intros outDecimalString stderr.
  rewrite payloadDecimalStringRepresentation_cases.
  split; [vm_compute; reflexivity | split; [reflexivity |]].
  vm_compute. discriminate.
Qed.






(* ================================================================== *)
(** * Properties of the traversal engine *)

(** ** The traversal carries out its schedule *)

Lemma runVisitor_app {Ctx : Type} (h : IterateHandler Ctx) (a b : list (TLVReader * nat)) :
  forall c,
    runVisitor h (a ++ b) c
    = (let (retval, c') := runVisitor h a c in
       if isSuccess retval then runVisitor h b c' else (retval, c')).
Proof.
  induction a as [| [r d] a IH]; intros c; simpl; [reflexivity |].
  destruct (h r d c) as [rv c1].
  destruct (isSuccess rv) eqn:Hrv.
  - apply IH.
  - rewrite Hrv. reflexivity.
Qed.

Lemma walkLevel_finish {Ctx : Type} (h : IterateHandler Ctx) (recurse : bool)
    (depth : nat) (l : list TLVElement) :
  Forall (fun e => forall d following c,
              IterateElement h recurse d e following c
              = finish h (scheduleFrom recurse d e following) c) l ->
  forall c,
    walkLevel (IterateElement h recurse depth) l c
    = finish h (scheduleLevel (scheduleFrom recurse depth) l) c.
Proof.
  induction 1 as [| x rest Hx _ IH]; intros c; [reflexivity |].
  cbn [walkLevel scheduleLevel].
  rewrite Hx. unfold finish at 1.
  destruct (scheduleFrom recurse depth x rest) as [calls status]. cbn [fst snd].
  destruct (runVisitor h calls c) as [rv c1] eqn:Hrun.
  destruct (isSuccess rv) eqn:Hrv.
  - destruct (isSuccess status) eqn:Hst.
    + rewrite IH. unfold finish.
      destruct (scheduleLevel (scheduleFrom recurse depth) rest) as [calls' status'].
      cbn [fst snd]. rewrite runVisitor_app, Hrun.
      cbv beta iota. rewrite ?Hrv. cbv beta iota. rewrite ?Hrv. reflexivity.
    + unfold finish. cbn [fst snd]. rewrite Hrun, Hrv. reflexivity.
  - rewrite Hrv. destruct (isSuccess status).
    + unfold finish.
      destruct (scheduleLevel (scheduleFrom recurse depth) rest) as [calls' status'].
      cbn [fst snd]. rewrite runVisitor_app, Hrun.
      cbv beta iota. rewrite ?Hrv. cbv beta iota. rewrite ?Hrv. reflexivity.
    + unfold finish. cbn [fst snd]. rewrite Hrun, Hrv. reflexivity.
Qed.

Lemma IterateElement_finish {Ctx : Type} (h : IterateHandler Ctx) (recurse : bool)
    (e : TLVElement) :
  forall d following c,
    IterateElement h recurse d e following c
    = finish h (scheduleFrom recurse d e following) c.
Proof.
  induction e as [tag type value | tag type members IH |]
    using TLVElement_nested_ind; intros d following c.
  - unfold finish. simpl.
    destruct (h _ d c) as [rv c1]. destruct rv; reflexivity.
  - cbn [IterateElement scheduleFrom].
    destruct recurse.
    + destruct (scheduleLevel (scheduleFrom true (S d)) members)
        as [calls status] eqn:Hsch.
      unfold finish. cbn [fst snd runVisitor].
      destruct (h _ d c) as [rv c1].
      destruct (isSuccess rv) eqn:Hrv; cbn [negb].
      * rewrite (walkLevel_finish h true (S d) members IH), Hsch.
        reflexivity.
      * rewrite Hrv. reflexivity.
    + unfold finish. cbn [fst snd runVisitor].
      destruct (h _ d c) as [rv c1].
      destruct (isSuccess rv) eqn:Hrv; cbn [negb].
      * destruct (malformedStream members); reflexivity.
      * rewrite Hrv. reflexivity.
  - reflexivity.
Qed.

(** [Iterate] calls the visitor on the scheduled positions in order, up to
    the visitor's first failure status, which it returns; when the visitor
    never fails it returns the status the schedule ends with. *)
Lemma Iterate_finish {Ctx : Type} (aReader : TLVReader)
    (h : IterateHandler Ctx) (c : Ctx) (recurse : bool) :
  Iterate aReader h c recurse = finish h (schedule recurse 0 aReader) c.
Proof.
  unfold Iterate, IterateStream, schedule.
  apply walkLevel_finish.
  apply Forall_forall. intros e _. apply IterateElement_finish.
Qed.

(** ** What a schedule ends with *)

Lemma scheduleLevel_status (recurse : bool) (depth : nat) (l : list TLVElement) :
  Forall (fun e => forall d following,
              snd (scheduleFrom recurse d e following)
              = if malformedElement e then CHIP_ERROR_TLV_DECODE
                else CHIP_NO_ERROR) l ->
  snd (scheduleLevel (scheduleFrom recurse depth) l)
  = if malformedStream l then CHIP_ERROR_TLV_DECODE else CHIP_NO_ERROR.
Proof.
  induction 1 as [| x rest Hx _ IH]; [reflexivity |].
  cbn [scheduleLevel]. unfold malformedStream in *. cbn [existsb].
  specialize (Hx depth rest).
  destruct (scheduleFrom recurse depth x rest) as [calls status].
  cbn [snd] in Hx. subst status.
  destruct (malformedElement x); cbn [isSuccess orb snd].
  - reflexivity.
  - destruct (scheduleLevel (scheduleFrom recurse depth) rest) as [calls' status'].
    exact IH.
Qed.

Lemma scheduleFrom_status (recurse : bool) (e : TLVElement) :
  forall d following,
    snd (scheduleFrom recurse d e following)
    = if malformedElement e then CHIP_ERROR_TLV_DECODE else CHIP_NO_ERROR.
Proof.
  induction e as [tag type value | tag type members IH |]
    using TLVElement_nested_ind; intros d following.
  - reflexivity.
  - cbn [scheduleFrom malformedElement]. destruct recurse.
    + pose proof (scheduleLevel_status true (S d) members IH) as Hm.
      destruct (scheduleLevel (scheduleFrom true (S d)) members) as [calls status].
      exact Hm.
    + reflexivity.
  - reflexivity.
Qed.

Lemma schedule_status (recurse : bool) (depth : nat) (l : list TLVElement) :
  snd (schedule recurse depth l)
  = if malformedStream l then CHIP_ERROR_TLV_DECODE else CHIP_NO_ERROR.
Proof.
  apply scheduleLevel_status.
  apply Forall_forall. intros e _. apply scheduleFrom_status.
Qed.

Lemma scheduleLevel_reachable (recurse : bool) (depth : nat) (l : list TLVElement) :
  Forall (fun e => malformedElement e = false ->
                   forall d following,
                     map fst (fst (scheduleFrom recurse d e following))
                     = reachableFrom recurse e following) l ->
  malformedStream l = false ->
  map fst (fst (scheduleLevel (scheduleFrom recurse depth) l))
  = positions (reachableFrom recurse) l.
Proof.
  induction 1 as [| x rest Hx _ IH]; intros Hwf; [reflexivity |].
  unfold malformedStream in *. cbn [existsb] in Hwf.
  apply orb_false_iff in Hwf. destruct Hwf as [Hwx Hwrest].
  cbn [scheduleLevel positions].
  pose proof (scheduleFrom_status recurse x depth rest) as Hst.
  rewrite Hwx in Hst.
  specialize (Hx Hwx depth rest). specialize (IH Hwrest).
  destruct (scheduleFrom recurse depth x rest) as [calls status].
  cbn [fst snd] in *. subst status. cbn [isSuccess].
  destruct (scheduleLevel (scheduleFrom recurse depth) rest) as [calls' status'].
  cbn [fst] in *. rewrite map_app, Hx, IH. reflexivity.
Qed.

Lemma scheduleFrom_reachable (recurse : bool) (e : TLVElement) :
  malformedElement e = false ->
  forall d following,
    map fst (fst (scheduleFrom recurse d e following))
    = reachableFrom recurse e following.
Proof.
  induction e as [tag type value | tag type members IH |]
    using TLVElement_nested_ind; intros Hwf d following.
  - reflexivity.
  - cbn [scheduleFrom reachableFrom]. destruct recurse.
    + cbn [malformedElement] in Hwf.
      pose proof (scheduleLevel_reachable true (S d) members IH Hwf) as Hm.
      destruct (scheduleLevel (scheduleFrom true (S d)) members) as [calls status].
      cbn [fst map] in *. rewrite Hm. reflexivity.
    + reflexivity.
  - discriminate.
Qed.

(** On a well-formed stream the schedule is the document order and ends
    with success. *)
Lemma schedule_wellFormed (recurse : bool) (depth : nat) (l : list TLVElement) :
  wellFormed l ->
  map fst (fst (schedule recurse depth l)) = reachable recurse l
  /\ snd (schedule recurse depth l) = CHIP_NO_ERROR.
Proof.
  intros Hwf. split.
  - apply scheduleLevel_reachable; [| exact Hwf].
    apply Forall_forall. intros e _. apply scheduleFrom_reachable.
  - rewrite schedule_status, Hwf. reflexivity.
Qed.

(** ** Visitors *)

Lemma isSuccess_true (e : CHIP_ERROR) : isSuccess e = true -> e = CHIP_NO_ERROR.
Proof. destruct e; simpl; intros H; (reflexivity || discriminate). Qed.


Lemma runVisitor_continue {Ctx : Type} (h : IterateHandler Ctx)
    (calls : list (TLVReader * nat)) :
  (forall r d c, fst (h r d c) = CHIP_NO_ERROR) ->
  forall c, fst (runVisitor h calls c) = CHIP_NO_ERROR.
Proof.
  intros Hh. induction calls as [| [r d] calls IH]; intros c; [reflexivity |].
  cbn [runVisitor]. specialize (Hh r d c).
  destruct (h r d c) as [rv c1]. cbn [fst] in Hh. subst rv. apply IH.
Qed.


Lemma runVisitor_CountHandler (calls : list (TLVReader * nat)) :
  forall n, runVisitor CountHandler calls n
            = (CHIP_NO_ERROR, (n + List.length calls)%nat).
Proof.
  induction calls as [| [r d] calls IH]; intros n; cbn [runVisitor CountHandler isSuccess].
  - rewrite Nat.add_0_r. reflexivity.
  - rewrite IH. cbn [List.length]. rewrite Nat.add_succ_r. reflexivity.
Qed.

Lemma runVisitor_NoOpHandler (calls : list (TLVReader * nat)) (c : unit) :
  runVisitor NoOpHandler calls c = (CHIP_NO_ERROR, c).
Proof. induction calls as [| [r d] calls IH]; [reflexivity | exact IH]. Qed.

(** The log of a recording visitor grows by one entry per call; a call that
    fails is the last one and its status is the one that ends the run. *)
Lemma runVisitor_recording {Ctx : Type} (h : IterateHandler Ctx)
    (calls : list (TLVReader * nat)) :
  forall log c,
  exists t,
    runVisitor (recording h) calls (log, c)
    = (fst (runVisitor h calls c), (log ++ t, snd (runVisitor h calls c)))
    /\ (isSuccess (fst (runVisitor h calls c)) = true ->
        List.length t = List.length calls)
    /\ forall i call,
         nth_error t i = Some call ->
         inv_status call <> CHIP_NO_ERROR ->
         List.length t = S i /\ fst (runVisitor h calls c) = inv_status call.
Proof.
  induction calls as [| [r d] calls IH]; intros log c.
  - exists []. cbn. rewrite app_nil_r. split; [reflexivity | split].
    + reflexivity.
    + intros i call Hnth. destruct i; discriminate.
  - cbn [runVisitor]. unfold recording at 1. cbn [fst snd].
    destruct (h r d c) as [rv c1].
    destruct (isSuccess rv) eqn:Hrv.
    + destruct (IH (log ++ [mkInvocation r d rv]) c1) as [t [Hrun [Hlen Ht]]].
      exists (mkInvocation r d rv :: t). rewrite Hrun, <- app_assoc.
      split; [reflexivity | split].
      * intros Hok. cbn [List.length]. rewrite Hlen by exact Hok. reflexivity.
      * intros i call Hnth Hfail.
        destruct i as [| i]; cbn [nth_error] in Hnth.
        -- injection Hnth as <-. cbn [inv_status] in Hfail.
           exfalso. apply Hfail. apply isSuccess_true. exact Hrv.
        -- destruct (Ht i call Hnth Hfail) as [Hl Hs].
           split; [cbn [List.length]; rewrite Hl; reflexivity | exact Hs].
    + exists [mkInvocation r d rv]. cbn [fst snd].
      split; [reflexivity | split].
      * rewrite Hrv. discriminate.
      * intros i call Hnth Hfail.
        destruct i as [| i]; cbn [nth_error] in Hnth.
        -- injection Hnth as <-. split; reflexivity.
        -- destruct i; discriminate.
Qed.

Lemma runVisitor_FindHandler (aTag : Tag) (calls : list (TLVReader * nat)) :
  forall aResult,
    runVisitor (FindHandler aTag) calls aResult
    = match find (hasTag aTag) (map fst calls) with
      | Some aReader => (CHIP_ERROR_STOP_ITERATION, Some aReader)
      | None => (CHIP_NO_ERROR, aResult)
      end.
Proof.
  induction calls as [| [r d] calls IH]; intros aResult; [reflexivity |].
  cbn [runVisitor map fst find]. unfold FindHandler at 1, hasTag at 1.
  destruct (GetTag r) as [tag |].
  - destruct (tag =? aTag); [reflexivity | apply IH].
  - apply IH.
Qed.

Lemma find_first_match (A : Type) (f : A -> bool) (before : list A) (x : A) (after : list A) :
  f x = true -> (forall y, In y before -> f y = false) ->
  find f (before ++ x :: after) = Some x.
Proof.
  intros Hx. induction before as [| y before IH]; intros Hbefore; cbn [app find].
  - rewrite Hx. reflexivity.
  - rewrite (Hbefore y) by (left; reflexivity).
    apply IH. intros z Hz. apply Hbefore. right. exact Hz.
Qed.

Lemma find_absent (A : Type) (f : A -> bool) (l : list A) :
  (forall y, In y l -> f y = false) -> find f l = None.
Proof.
  induction l as [| y l IH]; intros Hl; cbn [find]; [reflexivity |].
  rewrite (Hl y) by (left; reflexivity).
  apply IH. intros z Hz. apply Hl. right. exact Hz.
Qed.

Lemma runVisitor_failure_source {Ctx : Type} (h : IterateHandler Ctx)
    (calls : list (TLVReader * nat)) :
  forall c,
    isSuccess (fst (runVisitor h calls c)) = false ->
    exists r d x, fst (h r d x) = fst (runVisitor h calls c).
Proof.
  induction calls as [| [r d] calls IH]; intros c.
  - cbn. discriminate.
  - cbn [runVisitor]. destruct (h r d c) as [rv c1] eqn:Hh.
    destruct (isSuccess rv) eqn:Hrv.
    + apply IH.
    + intros _. exists r, d, c. rewrite Hh. reflexivity.
Qed.

(** ** Visitor abort *)

(** C7. For every element stream and every visitor: if the visitor returns
    a failure status on the [n]-th element visited, [Iterate] has called the
    visitor exactly [n] times and returns that status unchanged.  The calls
    are those a recording visitor logs; [Iterate] with the plain visitor
    returns the same status and context. *)
Theorem Iterate_visitor_abort :
  forall (Ctx : Type) (h : IterateHandler Ctx) (aReader : TLVReader) (c : Ctx)
         (recurse : bool) (n : nat) (call : Invocation),
    (1 <= n)%nat ->
    nth_error (fst (snd (Iterate aReader (recording h) ([], c) recurse))) (n - 1)
    = Some call ->
    inv_status call <> CHIP_NO_ERROR ->
    List.length (fst (snd (Iterate aReader (recording h) ([], c) recurse))) = n
    /\ fst (Iterate aReader (recording h) ([], c) recurse) = inv_status call
    /\ Iterate aReader h c recurse
       = (inv_status call,
          snd (snd (Iterate aReader (recording h) ([], c) recurse))).
Proof.
  intros Ctx h aReader c recurse n call Hn.
  rewrite !Iterate_finish. unfold finish.
  destruct (runVisitor_recording h (fst (schedule recurse 0 aReader)) [] c)
    as [t [Hrun [_ Ht]]].
  rewrite Hrun. cbn [fst snd app].
  destruct (runVisitor h (fst (schedule recurse 0 aReader)) c) as [rv c1].
  cbn [fst snd] in *.
  assert (Hlog : forall status,
             fst (snd (if isSuccess rv then (status, (t, c1)) else (rv, (t, c1)))) = t)
    by (intros status; destruct (isSuccess rv); reflexivity).
  rewrite Hlog. intros Hnth Hfail.
  destruct (Ht (n - 1)%nat call Hnth Hfail) as [Hlen Hst].
  subst rv.
  assert (Hrv : isSuccess (inv_status call) = false)
    by (destruct (inv_status call); (reflexivity || congruence)).
  rewrite Hrv. cbn [fst snd].
  repeat split. lia.
Qed.

(** The theorem on the example document with a visitor that fails with
    code 7 on the second element: two calls, no third element visited. *)
Lemma Iterate_visitor_abort_witness :
  List.length
    (fst (snd (Iterate exampleDocument
                 (recording (abortAtHandler 2 (CHIP_ERROR_CODE 7)))
                 ([], 0%nat) true))) = 2%nat
  /\ fst (Iterate exampleDocument
            (recording (abortAtHandler 2 (CHIP_ERROR_CODE 7)))
            ([], 0%nat) true) = CHIP_ERROR_CODE 7
  /\ Iterate exampleDocument (abortAtHandler 2 (CHIP_ERROR_CODE 7)) 0%nat true
     = (CHIP_ERROR_CODE 7, 2%nat).
Proof.
  refine (Iterate_visitor_abort nat (abortAtHandler 2 (CHIP_ERROR_CODE 7))
            exampleDocument 0%nat true 2%nat
            (mkInvocation (tl exampleDocument) 0%nat (CHIP_ERROR_CODE 7))
            _ _ _).
  - lia.
  - reflexivity.
  - discriminate.
Defined.

(** ** Decode failure *)






(** ** Find *)

Lemma Find_wellFormed (aReader : TLVReader) (aTag : Tag) (recurse : bool) :
  wellFormed aReader ->
  Find aReader aTag recurse
  = (CHIP_NO_ERROR, find (hasTag aTag) (reachable recurse aReader)).
Proof.
  intros Hwf. unfold Find. rewrite Iterate_finish. unfold finish.
  rewrite runVisitor_FindHandler.
  destruct (schedule_wellFormed recurse 0 aReader Hwf) as [Horder Hend].
  rewrite Horder, Hend.
  destruct (find (hasTag aTag) (reachable recurse aReader)); reflexivity.
Qed.

(** C9. For every well-formed element stream and every tag [T],
    [Find] succeeds.  Its result is the first cursor position, in document
    order among those reachable under the recurse setting, whose element
    has tag [T]: when the reachable positions split into positions without
    the tag, a position [found] with the tag, and the rest, the result
    cursor is [found]; when no reachable position has the tag, [Find]
    succeeds with no result cursor (not found). *)
Theorem Find_first_in_document_order :
  forall (aReader : TLVReader) (aTag : Tag) (recurse : bool),
    wellFormed aReader ->
    fst (Find aReader aTag recurse) = CHIP_NO_ERROR
    /\ (forall before found after,
           reachable recurse aReader = before ++ found :: after ->
           hasTag aTag found = true ->
           (forall x, In x before -> hasTag aTag x = false) ->
           Find aReader aTag recurse = (CHIP_NO_ERROR, Some found))
    /\ ((exists x, In x (reachable recurse aReader) /\ hasTag aTag x = true) ->
        exists found,
          Find aReader aTag recurse = (CHIP_NO_ERROR, Some found)
          /\ hasTag aTag found = true
          /\ In found (reachable recurse aReader))
    /\ ((forall x, In x (reachable recurse aReader) -> hasTag aTag x = false) ->
        Find aReader aTag recurse = (CHIP_NO_ERROR, None)).
Proof.
  intros aReader aTag recurse Hwf.
  rewrite (Find_wellFormed aReader aTag recurse Hwf).
  split; [reflexivity | split; [| split]].
  - intros before found after Hsplit Hfound Hbefore.
    rewrite Hsplit, find_first_match by assumption. reflexivity.
  - intros [x [Hin Hx]].
    destruct (find (hasTag aTag) (reachable recurse aReader)) as [found |] eqn:Hfind.
    + exists found. apply find_some in Hfind. destruct Hfind as [Hf1 Hf2].
      split; [reflexivity | split; assumption].
    + exfalso. pose proof (find_none _ _ Hfind x Hin) as Hnone.
      rewrite Hx in Hnone. discriminate.
  - intros Hnone. rewrite find_absent by exact Hnone. reflexivity.
Qed.

(** The theorem on the example document: tag 3 occurs twice inside the
    structure, and [Find] with recursion returns the cursor at the first
    occurrence, after the positions of tags 1 and 2; tag 9 does not
    occur. *)
Lemma Find_first_in_document_order_witness :
  Find exampleDocument 3 true
  = (CHIP_NO_ERROR,
     Some [leaf 3; Container 4 kTLVType_Array [leaf 5]; leaf 3])
  /\ (exists found,
         Find exampleDocument 6 false = (CHIP_NO_ERROR, Some found)
         /\ hasTag 6 found = true
         /\ In found (reachable false exampleDocument))
  /\ Find exampleDocument 9 true = (CHIP_NO_ERROR, None).
Proof.
  split; [| split].
  - refine (proj1 (proj2 (Find_first_in_document_order exampleDocument 3 true eq_refl))
              [exampleDocument; tl exampleDocument]
              [leaf 3; Container 4 kTLVType_Array [leaf 5]; leaf 3]
              _ eq_refl eq_refl _).
    intros x [Hx | [Hx | []]]; subst x; reflexivity.
  - refine (proj1 (proj2 (proj2
              (Find_first_in_document_order exampleDocument 6 false eq_refl))) _).
    exists [leaf 6]. split; [| reflexivity].
    right. right. left. reflexivity.
  - refine (proj2 (proj2 (proj2
              (Find_first_in_document_order exampleDocument 9 true eq_refl))) _).
    intros x Hx. cbv in Hx.
    repeat (destruct Hx as [Hx | Hx]; [subst x; reflexivity |]).
    destruct Hx.
Defined.

(** ** Count *)

(** C10. For every well-formed element stream, [Count] with recursion
    succeeds and its count is the number of calls [Iterate] with recursion
    makes to the no-op visitor (the calls a recording visitor logs), which
    is the number of reachable elements.  For every stream and either
    recurse setting the count is that number of calls, and [Count] returns
    the status [Iterate] returns with the no-op visitor: success, or the
    decode status on a stream with a malformed encoding. *)
Theorem Count_equals_visitor_invocations :
  (forall aReader : TLVReader,
      wellFormed aReader ->
      Count aReader true
      = (CHIP_NO_ERROR,
         List.length
           (fst (snd (Iterate aReader (recording NoOpHandler) ([], tt) true))))
      /\ snd (Count aReader true) = List.length (reachable true aReader))
  /\ (forall (aReader : TLVReader) (recurse : bool),
         snd (Count aReader recurse)
         = List.length
             (fst (snd (Iterate aReader (recording NoOpHandler) ([], tt) recurse)))
         /\ fst (Count aReader recurse) = fst (Iterate aReader NoOpHandler tt recurse)
         /\ (fst (Count aReader recurse) = CHIP_NO_ERROR
             \/ (fst (Count aReader recurse) = CHIP_ERROR_TLV_DECODE
                 /\ malformedStream aReader = true))).
Proof.
  assert (Hgen : forall (aReader : TLVReader) (recurse : bool),
             Count aReader recurse
             = (snd (schedule recurse 0 aReader),
                List.length (fst (schedule recurse 0 aReader)))
             /\ List.length
                  (fst (snd (Iterate aReader (recording NoOpHandler) ([], tt) recurse)))
                = List.length (fst (schedule recurse 0 aReader))
             /\ fst (Iterate aReader NoOpHandler tt recurse)
                = snd (schedule recurse 0 aReader)).
  { intros aReader recurse. unfold Count. rewrite !Iterate_finish. unfold finish.
    rewrite runVisitor_CountHandler, runVisitor_NoOpHandler.
    destruct (runVisitor_recording NoOpHandler (fst (schedule recurse 0 aReader)) [] tt)
      as [t [Hrun [Hlen _]]].
    rewrite Hrun, runVisitor_NoOpHandler in *. cbn [fst snd isSuccess app] in *.
    repeat split. apply Hlen. reflexivity. }
  split.
  - intros aReader Hwf.
    destruct (Hgen aReader true) as [HCount [Hlog _]].
    destruct (schedule_wellFormed true 0 aReader Hwf) as [Horder Hend].
    rewrite HCount, Hlog, Hend. split; [reflexivity |].
    cbn [snd]. rewrite <- Horder, length_map. reflexivity.
  - intros aReader recurse.
    destruct (Hgen aReader recurse) as [HCount [Hlog HNoOp]].
    rewrite HCount, Hlog, HNoOp. cbn [fst snd].
    split; [reflexivity | split; [reflexivity |]].
    rewrite schedule_status.
    destruct (malformedStream aReader); [right | left]; repeat split.
Qed.

(** The theorem on the example document: seven elements with recursion. *)
Lemma Count_equals_visitor_invocations_witness :
  Count exampleDocument true
  = (CHIP_NO_ERROR,
     List.length
       (fst (snd (Iterate exampleDocument (recording NoOpHandler) ([], tt) true))))
  /\ snd (Count exampleDocument true) = 7%nat.
Proof.
  exact (proj1 Count_equals_visitor_invocations exampleDocument eq_refl).
Defined.

(* ================================================================== *)
(** * Further properties of the manual setup payload generator *)

(** ** The text of a group *)

(** X1. For a width that is not negative and a number in the range of
    [uint32_t], the text [decimalStringWithPadding] has [sprintf] format
    consists of decimal digits only, and read as a decimal numeral it is
    the number: the zeros in front lose nothing. *)
Theorem decimalText_reads_back :
  forall number minLength : Z,
    0 <= minLength ->
    0 <= number < 2 ^ 32 ->
    all_digits (decimalText number minLength) = true
    /\ decimal_value (decimalText number minLength) = number.
Proof.
  intros number minLength HL Hn.
  destruct (decimalText_digits number minLength HL) as [Hd [Hv _]].
  rewrite to_uint32_small in Hv by exact Hn.
  split; assumption.
Qed.

(** The theorem at vendor ID 9050 in a group of 5 digits. *)
Lemma decimalText_reads_back_witness :
  all_digits (decimalText 9050 5) = true
  /\ decimal_value (decimalText 9050 5) = 9050.
Proof.
  apply (decimalText_reads_back 9050 5).
  - lia.
  - split; [lia | reflexivity].
Defined.

(** X2. Every call of [decimalStringWithPadding] writes past its buffer.
    The text [sprintf] formats is never empty and never shorter than
    [minLength], so the characters and the terminator take more than the
    [minLength] bytes [buf] is declared with, for every number and every
    width. *)
Theorem decimalStringWithPadding_out_of_bounds :
  forall number minLength : Z,
    decimalStringWithPadding number minLength
    = OutOfBounds minLength (decimalText number minLength)
    /\ minLength < Z.of_nat (String.length (decimalText number minLength)) + 1
    /\ 2 <= Z.of_nat (String.length (decimalText number minLength)) + 1.
Proof.
  intros number minLength. split; [| split].
  - apply decimalStringWithPadding_overrun.
  - apply decimalText_exceeds_buffer.
  - pose proof (decimalText_nonempty number minLength). lia.
Qed.


(** ** Unpacking the short representation *)

(** Reduction modulo a product keeps the part below the first factor. *)
Lemma mod_product_split (a c b d : Z) :
  0 < c -> 0 < b -> 0 <= a < c ->
  (a + c * d) mod (c * b) = a + c * (d mod b).
Proof.
  intros Hc Hb Ha. symmetry.
  pose proof (Z.mod_pos_bound d b Hb) as Hm.
  pose proof (Z.div_mod d b ltac:(lia)) as Hd.
  apply (Z.mod_unique_pos _ _ (d / b)).
  - split; [nia |].
    assert (c * (d mod b) <= c * (b - 1)) by nia. nia.
  - rewrite Hd at 1. ring.
Qed.

(** With a PIN code within its width and at most 31 bits, the result is
    the flag, the PIN code above it, and above the PIN code the
    discriminator bits that 32 bits leave room for. *)
Lemma shortPayloadRepresentation_fields {K : SetupPayloadConstants} payload :
  0 <= kSetupPINCodeFieldLengthInBits <= 31 ->
  0 <= setUpPINCode payload < 2 ^ kSetupPINCodeFieldLengthInBits ->
  shortPayloadRepresentation payload
  = (if requiresCustomFlow payload then 1 else 0)
    + 2 * setUpPINCode payload
    + 2 ^ (1 + kSetupPINCodeFieldLengthInBits)
      * (discriminator payload mod 2 ^ (31 - kSetupPINCodeFieldLengthInBits)).
Proof.
  intros HK Hpin.
  rewrite shortPayloadRepresentation_packed.
  rewrite packedExpression_bitPacked by (lia || exact Hpin).
  unfold bitPackedValue, to_uint32.
  set (P := kSetupPINCodeFieldLengthInBits) in *.
  replace (2 ^ 32) with (2 ^ (1 + P) * 2 ^ (31 - P))
    by (rewrite <- Z.pow_add_r by lia; f_equal; lia).
  change (2 ^ 1) with 2.
  replace ((if requiresCustomFlow payload then 1 else 0)
           + setUpPINCode payload * 2 + discriminator payload * 2 ^ (1 + P))
    with ((if requiresCustomFlow payload then 1 else 0) + 2 * setUpPINCode payload
          + 2 ^ (1 + P) * discriminator payload) by ring.
  apply mod_product_split.
  - apply Z.pow_pos_nonneg; lia.
  - apply Z.pow_pos_nonneg; lia.
  - rewrite Z.pow_add_r by lia. change (2 ^ 1) with 2.
    destruct (requiresCustomFlow payload); lia.
Qed.

Lemma shortPayloadRepresentation_unpack {K : SetupPayloadConstants} payload :
  0 <= kSetupPINCodeFieldLengthInBits <= 31 ->
  0 <= setUpPINCode payload < 2 ^ kSetupPINCodeFieldLengthInBits ->
  shortPayloadRepresentation payload mod 2
  = (if requiresCustomFlow payload then 1 else 0)
  /\ (shortPayloadRepresentation payload / 2) mod 2 ^ kSetupPINCodeFieldLengthInBits
     = setUpPINCode payload
  /\ shortPayloadRepresentation payload / 2 ^ (1 + kSetupPINCodeFieldLengthInBits)
     = discriminator payload mod 2 ^ (31 - kSetupPINCodeFieldLengthInBits).
Proof.
  intros HK Hpin.
  rewrite (shortPayloadRepresentation_fields payload HK Hpin).
  set (P := kSetupPINCodeFieldLengthInBits) in *.
  set (f := if requiresCustomFlow payload then 1 else 0).
  set (pin := setUpPINCode payload) in *.
  set (dm := discriminator payload mod 2 ^ (31 - P)).
  assert (Hf : 0 <= f < 2) by (unfold f; destruct (requiresCustomFlow payload); lia).
  assert (H2P : 0 < 2 ^ P) by (apply Z.pow_pos_nonneg; lia).
  assert (Hpow : 2 ^ (1 + P) = 2 * 2 ^ P)
    by (rewrite Z.pow_add_r by lia; reflexivity).
  assert (Hdm : 0 <= dm)
    by (apply Z.mod_pos_bound; apply Z.pow_pos_nonneg; lia).
  assert (Hhalf : (f + 2 * pin + 2 ^ (1 + P) * dm) / 2 = pin + 2 ^ P * dm).
  { symmetry. apply (Z.div_unique_pos _ _ _ f); [lia | rewrite Hpow; ring]. }
  split; [| split].
  - symmetry. apply (Z.mod_unique_pos _ _ (pin + 2 ^ P * dm)); [lia |].
    rewrite Hpow. ring.
  - rewrite Hhalf. symmetry.
    apply (Z.mod_unique_pos _ _ dm); [lia | ring].
  - symmetry. apply (Z.div_unique_pos _ _ _ (f + 2 * pin)); [| ring].
    rewrite Hpow. lia.
Qed.

(** X4. Unpacking with the offsets of the packing recovers the fields:
    for a PIN code width of at most 30 bits (shift counts of at most 31)
    and a PIN code within it, the low bit of the short representation is
    the custom-flow flag, the next [W_pin] bits are the PIN code, and the
    bits above are the discriminator reduced modulo [2^(31 - W_pin)],
    hence the discriminator itself when it is below that bound. *)
Theorem shortPayloadRepresentation_round_trip :
  forall (K : SetupPayloadConstants) (payload : SetupPayload),
    0 <= kSetupPINCodeFieldLengthInBits <= 30 ->
    0 <= setUpPINCode payload < 2 ^ kSetupPINCodeFieldLengthInBits ->
    shortPayloadRepresentation payload mod 2
    = (if requiresCustomFlow payload then 1 else 0)
    /\ (shortPayloadRepresentation payload / 2) mod 2 ^ kSetupPINCodeFieldLengthInBits
       = setUpPINCode payload
    /\ shortPayloadRepresentation payload / 2 ^ (1 + kSetupPINCodeFieldLengthInBits)
       = discriminator payload mod 2 ^ (31 - kSetupPINCodeFieldLengthInBits)
    /\ (0 <= discriminator payload < 2 ^ (31 - kSetupPINCodeFieldLengthInBits) ->
        shortPayloadRepresentation payload / 2 ^ (1 + kSetupPINCodeFieldLengthInBits)
        = discriminator payload).
Proof.
  intros K payload HK Hpin.
  assert (HK31 : 0 <= kSetupPINCodeFieldLengthInBits <= 31) by lia.
  destruct (shortPayloadRepresentation_unpack payload HK31 Hpin) as [Hf [Hp Hd]].
  split; [exact Hf | split; [exact Hp | split; [exact Hd |]]].
  intros Hdisc. rewrite Hd. apply Z.mod_small. exact Hdisc.
Qed.

(** The theorem at the 32-bit widths, custom flow, PIN code 20202021 and
    discriminator 10. *)
Lemma shortPayloadRepresentation_round_trip_witness :
  let payload := withDiscriminator 10 exampleCustomPayload in
  @shortPayloadRepresentation wordConstants payload mod 2 = 1
  /\ (@shortPayloadRepresentation wordConstants payload / 2) mod 2 ^ 27 = 20202021
  /\ @shortPayloadRepresentation wordConstants payload / 2 ^ (1 + 27) = 10.
Proof.
  intros payload.
  assert (HK : 0 <= @kSetupPINCodeFieldLengthInBits wordConstants <= 30)
    by (simpl; lia).
  assert (Hpin : 0 <= setUpPINCode payload
                 < 2 ^ @kSetupPINCodeFieldLengthInBits wordConstants)
    by (split; [simpl; lia | reflexivity]).
  destruct (shortPayloadRepresentation_round_trip wordConstants payload HK Hpin)
    as [Hf [Hp [_ Hd]]].
  split; [exact Hf | split; [exact Hp |]].
  apply Hd. split; [simpl; lia | reflexivity].
Defined.

(** Payloads with equal short representations have equal packed fields,
    when the fields fit 32 bits. *)
Lemma unpack_injective :
  forall (K : SetupPayloadConstants) (p q : SetupPayload),
    0 <= kSetupPINCodeFieldLengthInBits <= 31 ->
    0 <= setUpPINCode p < 2 ^ kSetupPINCodeFieldLengthInBits ->
    0 <= setUpPINCode q < 2 ^ kSetupPINCodeFieldLengthInBits ->
    0 <= discriminator p < 2 ^ (31 - kSetupPINCodeFieldLengthInBits) ->
    0 <= discriminator q < 2 ^ (31 - kSetupPINCodeFieldLengthInBits) ->
    shortPayloadRepresentation p = shortPayloadRepresentation q ->
    requiresCustomFlow p = requiresCustomFlow q
    /\ setUpPINCode p = setUpPINCode q
    /\ discriminator p = discriminator q.
Proof.
  intros K p q HK Hp Hq Hdp Hdq Heq.
  destruct (shortPayloadRepresentation_unpack p HK Hp) as [Hfp [Hpp Hddp]].
  destruct (shortPayloadRepresentation_unpack q HK Hq) as [Hfq [Hpq Hddq]].
  rewrite Heq in Hfp, Hpp, Hddp.
  rewrite Hfq in Hfp. rewrite Hpq in Hpp. rewrite Hddq in Hddp.
  rewrite !Z.mod_small in Hddp by assumption.
  split; [| split; congruence].
  destruct (requiresCustomFlow p), (requiresCustomFlow q);
    (reflexivity || discriminate).
Qed.

(** X5. Within 32 bits the packing is injective: for a PIN code width of
    at most 31 bits, two payloads with PIN codes within the width and
    discriminators below [2^(31 - W_pin)] that have the same short
    representation agree on the flag, the PIN code and the
    discriminator. *)
Theorem shortPayloadRepresentation_injective :
  forall (K : SetupPayloadConstants) (p q : SetupPayload),
    0 <= kSetupPINCodeFieldLengthInBits <= 31 ->
    0 <= setUpPINCode p < 2 ^ kSetupPINCodeFieldLengthInBits ->
    0 <= setUpPINCode q < 2 ^ kSetupPINCodeFieldLengthInBits ->
    0 <= discriminator p < 2 ^ (31 - kSetupPINCodeFieldLengthInBits) ->
    0 <= discriminator q < 2 ^ (31 - kSetupPINCodeFieldLengthInBits) ->
    shortPayloadRepresentation p = shortPayloadRepresentation q ->
    requiresCustomFlow p = requiresCustomFlow q
    /\ setUpPINCode p = setUpPINCode q
    /\ discriminator p = discriminator q.
Proof.
  intros K p q HK Hp Hq Hdp Hdq Heq.
  apply (unpack_injective K p q); assumption.
Qed.

(** The theorem at the 32-bit widths, on two payloads that differ in
    vendor ID and product ID only. *)
Lemma shortPayloadRepresentation_injective_witness :
  let p := withDiscriminator 10 examplePayload in
  let q := withVendorProduct 9050 20043 (withDiscriminator 10 examplePayload) in
  requiresCustomFlow p = requiresCustomFlow q
  /\ setUpPINCode p = setUpPINCode q
  /\ discriminator p = discriminator q.
Proof.
  intros p q.
  apply (shortPayloadRepresentation_injective wordConstants p q).
  - simpl. lia.
  - split; [simpl; lia | reflexivity].
  - split; [simpl; lia | reflexivity].
  - split; [simpl; lia | reflexivity].
  - split; [simpl; lia | reflexivity].
  - reflexivity.
Defined.

(** ** Reading the manual code text back *)









(** ** Distinct payloads, distinct texts *)



(** ** Discriminators that share a short representation *)



